(** * adyen-api-go: the client of [adyen.go], embedded and verified

    The package is a thin HTTP client.  Its methods have a pointer
    receiver [a *Adyen], talk to the network and write to an optional
    logger.  The embedding keeps that shape:

    - the receiver lives in a [World] next to the chronological [trace]
      of observable events (log lines, requests handed to the HTTP
      client, response bodies closed), and every method is an action of
      the state monad [M] over that world;
    - the Go libraries the methods call ([encoding/json],
      [go-querystring], [net/url], the HTTP transport) are the fields of a
      [Runtime] record, so that every statement holds for every behaviour
      of those libraries;
    - the small library functions whose result the statements mention
      ([base64.StdEncoding], [url.QueryEscape], [url.Values.Encode],
      [http.Header.Set], [Request.SetBasicAuth]) are written out in
      [Module GoStd] and can be evaluated. *)

From Stdlib Require Import ZArith NArith Ascii String List Lia.
From stdpp Require Import base option list strings gmap sorting.

Local Open Scope Z_scope.
Local Open Scope string_scope.
Local Open Scope list_scope.

(** Go's [[]byte]: the sources only ever print, send or receive it. *)
Abbreviation bytes := string (only parsing).

(** Go's [error] values.  Library failures carry the package that
    raised them and its message; [APIError] is the error of this package,
    built from a response the vendor answered with a failure status. *)
Inductive error :=
| LibError (pkg msg : string)
| APIError (status : Z) (body : bytes).

(** ** The parts of the Go standard library used by [adyen.go] *)
Module GoStd.

(** [byte(c)] as a number. *)
Definition code (c : ascii) : N := N_of_ascii c.

Definition table_char (table : string) (n : N) : ascii :=
  default "="%char (String.get (N.to_nat n) table).

(** *** encoding/base64, [StdEncoding.EncodeToString] *)
Definition encodeStd : string :=
  "ABCDEFGHIJKLMNOPQRSTUVWXYZabcdefghijklmnopqrstuvwxyz0123456789+/".

Definition sextet (val : N) (shift : N) : ascii :=
  table_char encodeStd (N.land (N.shiftr val shift) 63).

Fixpoint base64_chunks (src : list ascii) : list ascii :=
  match src with
  | [] => []
  | [a] =>
      let val := N.shiftl (code a) 16 in
      [sextet val 18; sextet val 12; "="%char; "="%char]
  | [a; b] =>
      let val := N.lor (N.shiftl (code a) 16) (N.shiftl (code b) 8) in
      [sextet val 18; sextet val 12; sextet val 6; "="%char]
  | a :: b :: c :: rest =>
      let val := N.lor (N.lor (N.shiftl (code a) 16) (N.shiftl (code b) 8))
                       (code c) in
      sextet val 18 :: sextet val 12 :: sextet val 6 :: sextet val 0
        :: base64_chunks rest
  end.

Definition base64_EncodeToString (src : bytes) : string :=
  string_of_list_ascii (base64_chunks (list_ascii_of_string src)).

(** *** net/url, [QueryEscape] and [Values.Encode] *)
Definition upperhex : string := "0123456789ABCDEF".

Definition is_alnum (c : ascii) : bool :=
  let n := code c in
  ((48 <=? n) && (n <=? 57) || (65 <=? n) && (n <=? 90)
   || (97 <=? n) && (n <=? 122))%N.

(** [shouldEscape(c, encodeQueryComponent)]: only the unreserved
    characters pass unescaped. *)
Definition shouldEscape (c : ascii) : bool :=
  negb (is_alnum c
        || Ascii.eqb c "-" || Ascii.eqb c "_" || Ascii.eqb c "."
        || Ascii.eqb c "~").

Fixpoint QueryEscape (s : string) : string :=
  match s with
  | EmptyString => EmptyString
  | String c rest =>
      if shouldEscape c then
        if Ascii.eqb c " " then String "+" (QueryEscape rest)
        else String "%" (String (table_char upperhex (N.shiftr (code c) 4))
               (String (table_char upperhex (N.land (code c) 15))
                  (QueryEscape rest)))
      else String c (QueryEscape rest)
  end.

(** [url.Values] and [http.Header] are both [map[string][]string];
    reading a nil map behaves as reading an empty one, so nil is [∅]. *)
Abbreviation Values := (gmap string (list string)) (only parsing).
Abbreviation Header := (gmap string (list string)) (only parsing).

Definition key_le (a b : string) : Prop := String.leb a b = true.

Global Instance key_le_dec a b : Decision (key_le a b).
Proof. unfold key_le. apply _. Defined.

Definition sorted_keys (v : Values) : list string :=
  merge_sort key_le (fst <$> map_to_list v).

(** One turn of the inner loop of [Encode]: a separator unless the
    buffer is still empty, then [key=value]. *)
Definition write_pair (keyEscaped : string) (buf : string) (value : string)
  : string :=
  (if (0 <? String.length buf)%nat then buf +:+ "&" else buf)
    +:+ keyEscaped +:+ "=" +:+ QueryEscape value.

Definition write_key (v : Values) (buf : string) (k : string) : string :=
  foldl (write_pair (QueryEscape k)) buf (default [] (v !! k)).

Definition Values_Encode (v : Values) : string :=
  foldl (write_key v) "" (sorted_keys v).

(** *** net/http: requests, headers, responses *)
Record Request := mkRequest {
  Method : string;
  URL : string;
  ReqHeader : Header;
  ReqBody : option bytes
}.

(** [h.Set(key, value)] replaces whatever was stored under the key.  Go
    canonicalises the key first; the two keys [adyen.go] uses are
    already in canonical form. *)
Definition Header_Set (key value : string) (h : Header) : Header :=
  <[key := [value]]> h.

Definition Header_Get (key : string) (h : Header) : string :=
  match h !! key with
  | Some (v :: _) => v
  | _ => ""
  end.

Definition Request_Header_Set (key value : string) (r : Request) : Request :=
  {| Method := Method r; URL := URL r;
     ReqHeader := Header_Set key value (ReqHeader r);
     ReqBody := ReqBody r |}.

Definition basicAuth (username password : string) : string :=
  base64_EncodeToString (username +:+ ":" +:+ password).

Definition SetBasicAuth (username password : string) (r : Request) : Request :=
  Request_Header_Set "Authorization"
    ("Basic " +:+ basicAuth username password) r.

(** [http.NewRequest] accepts the method (a literal in [adyen.go]) and
    fails exactly when [url.Parse] rejects the URL; the fresh request has
    an empty header. *)
Definition http_NewRequest (url_Parse : string → option error)
    (method url : string) (body : option bytes) : Request + error :=
  match url_Parse url with
  | Some err => inr err
  | None => inl {| Method := method; URL := url; ReqHeader := ∅;
                   ReqBody := body |}
  end.

(** [http.Client]: [Timeout] in nanoseconds, zero meaning no timeout. *)
Record Client := mkClient { Timeout : Z }.

(** [&http.Client{}] *)
Definition zero_Client : Client := {| Timeout := 0 |}.

(** [http.Response]: the status code and the body stream, given by what
    reading it to the end yields (the bytes read and the read error, if
    any). *)
Record http_Response := mkHttpResponse {
  StatusCode : Z;
  BodyStream : bytes * option error
}.

(** [log.Logger], as built by [log.New(out, prefix, flag)]. *)
Record log_Logger := mkLogger { log_prefix : string; log_flags : Z }.

End GoStd.

Import GoStd.

(** ** The data model of the package *)

(** [environment] is declared outside [adyen.go]; the client only calls
    its three URL methods, which are therefore taken as given. *)
Module Environment.
Record t := mk {
  BaseURL : string → string → string;
  ClientURL : string → string;
  HppURL : string → string
}.
End Environment.
Abbreviation environment := Environment.t (only parsing).

(** Modelled from the spec: the struct [apiCredentials], declared outside
    [adyen.go]: "username, password, optional HMAC signing key,
    environment (test/live)".  [adyen.go] reads the fields [Env],
    [Username] and [Password]. *)
Record apiCredentials := mkCredentials {
  Env : environment;
  Username : string;
  Password : string;
  Hmac : string
}.

(** Modelled from the spec: [newCredentials], declared outside
    [adyen.go]; it stores what it is given and leaves the signing key at
    its zero value. *)
Definition newCredentials (env : environment) (username password : string)
  : apiCredentials :=
  {| Env := env; Username := username; Password := password; Hmac := "" |}.

(** Modelled from the spec: [newCredentialsWithHMAC], declared outside
    [adyen.go]; as [newCredentials], with the signing key of the skin. *)
Definition newCredentialsWithHMAC (env : environment)
    (username password hmac : string) : apiCredentials :=
  {| Env := env; Username := username; Password := password; Hmac := hmac |}.

Definition DefaultCurrency : string := "EUR".
Definition APIVersion : string := "v25".
Definition PaymentService : string := "Payment".
Definition RecurringService : string := "Recurring".

(** [type Adyen struct]; a nil [*log.Logger] is [None]. *)
Record Adyen := mkAdyen {
  Credentials : apiCredentials;
  Currency : string;
  MerchantAccount : string;
  Logger : option log_Logger
}.

Definition New (env : environment) (username password : string) : Adyen :=
  {| Credentials := newCredentials env username password;
     Currency := DefaultCurrency;
     MerchantAccount := "";
     Logger := None |}.

Definition NewWithHMAC (env : environment) (username password hmac : string)
  : Adyen :=
  {| Credentials := newCredentialsWithHMAC env username password hmac;
     Currency := DefaultCurrency;
     MerchantAccount := "";
     Logger := None |}.

(** [type Response struct { *http.Response; Body []byte }]; the embedded
    field is called [HTTPResponse] here, since a field cannot carry the
    name of its record. *)
Record Response := mkResponse {
  HTTPResponse : http_Response;
  Body : bytes
}.

(** Modelled from the spec: [Response.handleHTTPError], declared outside
    [adyen.go]: "Response error classification correctly flags non-2xx
    statuses as failures"; the error is built from the status and the
    vendor's body. *)
Definition handleHTTPError (r : Response) : option error :=
  let status := StatusCode (HTTPResponse r) in
  if ((200 <=? status) && (status <? 300))%Z then None
  else Some (APIError status (Body r)).

(** ** The world the methods run in *)

Inductive event :=
| EvLog (lg : log_Logger) (line : string)
| EvDo (client : Client) (req : Request)
| EvClose (resp : http_Response).

Record World := mkWorld {
  self : Adyen;
  trace : list event
}.

(** The libraries behind the calls of [adyen.go].  [Entity] stands for
    the [interface{}] request entities.  [query_Values] returns a pair
    because [executeHpp] uses the values whatever the error says; the
    transport may answer by what has happened so far. *)
Record Runtime (Entity : Type) := mkRuntime {
  json_Marshal : Entity → bytes + error;
  query_Values : Entity → Values * option error;
  url_Parse : string → option error;
  client_Do : list event → Client → Request → http_Response + error
}.
Arguments json_Marshal {Entity} _ _.
Arguments query_Values {Entity} _ _.
Arguments url_Parse {Entity} _ _.
Arguments client_Do {Entity} _ _ _ _.

Definition M (A : Type) : Type := World → A * World.

#[global] Instance M_ret : MRet M := λ A x w, (x, w).
#[global] Instance M_bind : MBind M := λ A B f m w, f (m w).1 (m w).2.

Definition gets {A} (f : Adyen → A) : M A := λ w, (f (self w), w).

Definition modify (f : Adyen → Adyen) : M unit :=
  λ w, (tt, {| self := f (self w); trace := trace w |}).

Definition emit (ev : event) : M unit :=
  λ w, (tt, {| self := self w; trace := trace w ++ [ev] |}).

(** [defer cleanup] followed by the rest of the function body: the
    cleanup runs once the body has produced the values to return, and
    cannot change them (the results of both methods are unnamed). *)
Definition defer {A} (cleanup : M unit) (body : M A) : M A :=
  x ← body; cleanup;; mret x.

(** [if a.Logger != nil { a.Logger.Printf(...) }] *)
Definition log_if_attached (line : string) : M unit :=
  lg ← gets Logger;
  match lg with
  | Some l => emit (EvLog l line)
  | None => mret tt
  end.

Definition nl : string := String "010"%char "".

(** ** The methods of [*Adyen] *)

Definition ClientURL (a : Adyen) (clientID : string) : string :=
  Environment.ClientURL (Env (Credentials a)) clientID.

Definition adyenURL (a : Adyen) (service requestType : string) : string :=
  Environment.BaseURL (Env (Credentials a)) service APIVersion
    +:+ "/" +:+ requestType +:+ "/".

Definition createHPPUrl (a : Adyen) (requestType : string) : string :=
  Environment.HppURL (Env (Credentials a)) requestType.

Definition AttachLogger (l : option log_Logger) : M unit :=
  modify (λ a, {| Credentials := Credentials a; Currency := Currency a;
                  MerchantAccount := MerchantAccount a; Logger := l |}).

Definition GetCurrency : M string := gets Currency.

Definition SetCurrency (currency : string) : M unit :=
  modify (λ a, {| Credentials := Credentials a; Currency := currency;
                  MerchantAccount := MerchantAccount a; Logger := Logger a |}).

Definition GetMerchantAccount : M string := gets MerchantAccount.

Definition SetMerchantAccount (account : string) : M unit :=
  modify (λ a, {| Credentials := Credentials a; Currency := Currency a;
                  MerchantAccount := account; Logger := Logger a |}).

(** What [execute] and [executeHpp] hand back: the response pointer
    ([None] for nil) and the error ([None] for nil). *)
Abbreviation result := (option Response * option error)%type (only parsing).

Section Requests.
Context {Entity : Type} (rt : Runtime Entity).

Definition Do (client : Client) (req : Request) : M (http_Response + error) :=
  λ w, (client_Do rt (trace w) client req,
        {| self := self w; trace := trace w ++ [EvDo client req] |}).

Definition execute (service method : string) (requestEntity : Entity)
  : M result :=
  match json_Marshal rt requestEntity with
  | inr err => mret (None, Some err)
  | inl body =>
      url ← gets (λ a, adyenURL a service method);
      match http_NewRequest (url_Parse rt) "POST" url (Some body) with
      | inr err => mret (None, Some err)
      | inl req =>
          log_if_attached
            ("[Request]: " +:+ method +:+ " " +:+ url +:+ nl +:+ body);;
          let req := Request_Header_Set "Content-Type" "application/json" req in
          username ← gets (λ a, Username (Credentials a));
          password ← gets (λ a, Password (Credentials a));
          let req := SetBasicAuth username password req in
          let client := zero_Client in
          r ← Do client req;
          match r with
          | inr err => mret (None, Some err)
          | inl resp =>
              defer (emit (EvClose resp))
                (let '(buf, rerr) := BodyStream resp in
                 match rerr with
                 | Some err => mret (None, Some err)
                 | None =>
                     log_if_attached
                       ("[Response]: " +:+ method +:+ " " +:+ url +:+ nl
                          +:+ buf);;
                     let providerResponse :=
                       {| HTTPResponse := resp; Body := buf |} in
                     match handleHTTPError providerResponse with
                     | Some err => mret (None, Some err)
                     | None => mret (Some providerResponse, None)
                     end
                 end)
          end
      end
  end.

Definition executeHpp (method : string) (requestEntity : Entity) : M result :=
  url ← gets (λ a, createHPPUrl a method);
  let '(v, _) := query_Values rt requestEntity in
  let url := url +:+ "?" +:+ Values_Encode v in
  match http_NewRequest (url_Parse rt) "GET" url None with
  | inr err => mret (None, Some err)
  | inl req =>
      log_if_attached ("[Request]: " +:+ method +:+ " " +:+ url);;
      let client := zero_Client in
      r ← Do client req;
      match r with
      | inr err => mret (None, Some err)
      | inl resp =>
          defer (emit (EvClose resp))
            (let '(buf, rerr) := BodyStream resp in
             match rerr with
             | Some err => mret (None, Some err)
             | None =>
                 log_if_attached
                   ("[Response]: " +:+ method +:+ " " +:+ url +:+ nl +:+ buf);;
                 let providerResponse :=
                   {| HTTPResponse := resp; Body := buf |} in
                 mret (Some providerResponse, None)
             end)
      end
  end.

End Requests.

(** ** Observing a run *)

(** The events an action adds to the trace of the world it starts in. *)
Definition new_events {A} (m : M A) (w : World) : list event :=
  drop (length (trace w)) (trace (m w).2).

(** The requests handed to an HTTP client, oldest first. *)
Fixpoint sends (evs : list event) : list (Client * Request) :=
  match evs with
  | [] => []
  | EvDo c r :: rest => (c, r) :: sends rest
  | _ :: rest => sends rest
  end.

(** The responses whose body was read and closed, oldest first. *)
Fixpoint answers (evs : list event) : list http_Response :=
  match evs with
  | [] => []
  | EvClose resp :: rest => resp :: answers rest
  | _ :: rest => answers rest
  end.

(** What a guarded [Printf] adds to the trace. *)
Definition logged (a : Adyen) (line : string) : list event :=
  match Logger a with
  | Some l => [EvLog l line]
  | None => []
  end.


(** The world of a client given field by field. *)
Definition world_of (credentials : apiCredentials) (currency account : string)
    (logger : option log_Logger) (tr : list event) : World :=
  {| self := {| Credentials := credentials; Currency := currency;
                MerchantAccount := account; Logger := logger |};
     trace := tr |}.

(** ** The requests as the specification words them

    "authenticated POST requests with JSON bodies (backend API)": the
    method, the versioned URL, the JSON body, and a basic-auth header made
    from the stored credentials. *)
Definition backend_request (a : Adyen) (service method : string) (body : bytes)
  : Request :=
  {| Method := "POST";
     URL := adyenURL a service method;
     ReqHeader :=
       <["Authorization" :=
           ["Basic " +:+ basicAuth (Username (Credentials a))
                                   (Password (Credentials a))]]>
         (<["Content-Type" := ["application/json"]]> ∅);
     ReqBody := Some body |}.

(** "unauthenticated GET requests with query-string-encoded parameters
    (hosted payment page API)". *)
Definition hpp_request (a : Adyen) (method : string) (v : Values) : Request :=
  {| Method := "GET";
     URL := createHPPUrl a method +:+ "?" +:+ Values_Encode v;
     ReqHeader := ∅;
     ReqBody := None |}.

Definition request_line (method url : string) (body : bytes) : string :=
  "[Request]: " +:+ method +:+ " " +:+ url +:+ nl +:+ body.

Definition response_line (method url : string) (buf : bytes) : string :=
  "[Response]: " +:+ method +:+ " " +:+ url +:+ nl +:+ buf.

(** ** The runs of [execute], one constructor per [return] of the source *)
Section Runs.
Context {Entity : Type} (rt : Runtime Entity).
Context (service method : string) (requestEntity : Entity) (w : World).

Let a := self w.
Let url := adyenURL a service method.

Inductive execute_run : result → list event → Prop :=
| run_marshal_fails err :
    json_Marshal rt requestEntity = inr err →
    execute_run (None, Some err) []
| run_request_fails body err :
    json_Marshal rt requestEntity = inl body →
    url_Parse rt url = Some err →
    execute_run (None, Some err) []
| run_transport_fails body err :
    let req := backend_request a service method body in
    let before := logged a (request_line method url body) in
    json_Marshal rt requestEntity = inl body →
    url_Parse rt url = None →
    client_Do rt (trace w ++ before) zero_Client req = inr err →
    execute_run (None, Some err) (before ++ [EvDo zero_Client req])
| run_read_fails body resp buf err :
    let req := backend_request a service method body in
    let before := logged a (request_line method url body) in
    json_Marshal rt requestEntity = inl body →
    url_Parse rt url = None →
    client_Do rt (trace w ++ before) zero_Client req = inl resp →
    BodyStream resp = (buf, Some err) →
    execute_run (None, Some err)
      (before ++ [EvDo zero_Client req; EvClose resp])
| run_status_fails body resp buf err :
    let req := backend_request a service method body in
    let before := logged a (request_line method url body) in
    json_Marshal rt requestEntity = inl body →
    url_Parse rt url = None →
    client_Do rt (trace w ++ before) zero_Client req = inl resp →
    BodyStream resp = (buf, None) →
    handleHTTPError {| HTTPResponse := resp; Body := buf |} = Some err →
    execute_run (None, Some err)
      (before ++ [EvDo zero_Client req]
         ++ logged a (response_line method url buf) ++ [EvClose resp])
| run_succeeds body resp buf :
    let req := backend_request a service method body in
    let before := logged a (request_line method url body) in
    json_Marshal rt requestEntity = inl body →
    url_Parse rt url = None →
    client_Do rt (trace w ++ before) zero_Client req = inl resp →
    BodyStream resp = (buf, None) →
    handleHTTPError {| HTTPResponse := resp; Body := buf |} = None →
    execute_run (Some {| HTTPResponse := resp; Body := buf |}, None)
      (before ++ [EvDo zero_Client req]
         ++ logged a (response_line method url buf) ++ [EvClose resp]).

End Runs.

(** ** The runs of [executeHpp] *)
Section HppRuns.
Context {Entity : Type} (rt : Runtime Entity).
Context (method : string) (requestEntity : Entity) (w : World).

Let a := self w.
Let v := (query_Values rt requestEntity).1.
Let req := hpp_request a method v.
Let before := logged a ("[Request]: " +:+ method +:+ " " +:+ URL req).

Inductive executeHpp_run : result → list event → Prop :=
| hpp_request_fails err :
    url_Parse rt (URL req) = Some err →
    executeHpp_run (None, Some err) []
| hpp_transport_fails err :
    url_Parse rt (URL req) = None →
    client_Do rt (trace w ++ before) zero_Client req = inr err →
    executeHpp_run (None, Some err) (before ++ [EvDo zero_Client req])
| hpp_read_fails resp buf err :
    url_Parse rt (URL req) = None →
    client_Do rt (trace w ++ before) zero_Client req = inl resp →
    BodyStream resp = (buf, Some err) →
    executeHpp_run (None, Some err)
      (before ++ [EvDo zero_Client req; EvClose resp])
| hpp_succeeds resp buf :
    url_Parse rt (URL req) = None →
    client_Do rt (trace w ++ before) zero_Client req = inl resp →
    BodyStream resp = (buf, None) →
    executeHpp_run (Some {| HTTPResponse := resp; Body := buf |}, None)
      (before ++ [EvDo zero_Client req]
         ++ logged a (response_line method (URL req) buf) ++ [EvClose resp]).

End HppRuns.

(** ** Sequences of calls on one client *)
Section Operations.
Context {Entity : Type} (rt : Runtime Entity).

Inductive operation :=
| OpAttachLogger (l : option log_Logger)
| OpGetCurrency
| OpSetCurrency (currency : string)
| OpGetMerchantAccount
| OpSetMerchantAccount (account : string)
| OpExecute (service method : string) (requestEntity : Entity)
| OpExecuteHpp (method : string) (requestEntity : Entity).

Definition run_operation (op : operation) : M unit :=
  match op with
  | OpAttachLogger l => AttachLogger l
  | OpGetCurrency => GetCurrency;; mret tt
  | OpSetCurrency c => SetCurrency c
  | OpGetMerchantAccount => GetMerchantAccount;; mret tt
  | OpSetMerchantAccount m => SetMerchantAccount m
  | OpExecute service method e => execute rt service method e;; mret tt
  | OpExecuteHpp method e => executeHpp rt method e;; mret tt
  end.

Fixpoint run_operations (ops : list operation) : M unit :=
  match ops with
  | [] => mret tt
  | op :: rest => run_operation op;; run_operations rest
  end.

End Operations.
Arguments operation Entity : clear implicits.

(** ** A small runtime to run the methods on

    The statements below hold for every environment and every runtime;
    this one serves to evaluate the methods on concrete calls.  Its
    request entities are flat structs of string fields, and channels,
    which neither [json.Marshal] nor [query.Values] can encode. *)
Module Demo.

Inductive entity :=
| Struct (fields : list (string * string))
| Channel.

Definition sample_env : environment :=
  {| Environment.BaseURL service version :=
       "https://backend.test/servlet/" +:+ service +:+ "/" +:+ version;
     Environment.ClientURL clientID :=
       "https://pages.test/js/" +:+ clientID +:+ ".shtml";
     Environment.HppURL request :=
       "https://pages.test/hpp/" +:+ request +:+ ".shtml" |}.

Definition quote (s : string) : string :=
  String "034"%char (s +:+ String "034"%char "").

Definition marshal (e : entity) : bytes + error :=
  match e with
  | Struct fields =>
      inl ("{" +:+ String.concat ","
                     ((λ kv, quote kv.1 +:+ ":" +:+ quote kv.2) <$> fields)
               +:+ "}")
  | Channel => inr (LibError "json" "unsupported type: chan int")
  end.

Definition values (e : entity) : Values * option error :=
  match e with
  | Struct fields => (list_to_map ((λ kv, (kv.1, [kv.2])) <$> fields), None)
  | Channel =>
      (∅, Some (LibError "query" "Values() expects struct input. Got chan"))
  end.

(** A server that answers every request with the given status and body. *)
Definition server (status : Z) (body : bytes) : Runtime entity :=
  {| json_Marshal := marshal;
     query_Values := values;
     url_Parse := λ _, None;
     client_Do := λ _ _ _,
       inl {| StatusCode := status; BodyStream := (body, None) |} |}.

(** A network that cannot be reached. *)
Definition offline : Runtime entity :=
  {| json_Marshal := marshal;
     query_Values := values;
     url_Parse := λ _, None;
     client_Do := λ _ _ _, inr (LibError "net/http" "connection refused") |}.

Definition client : Adyen := New sample_env "un" "pw".

Definition start : World := {| self := client; trace := [] |}.

Definition capture : entity :=
  Struct [("merchantAccount", "merch"); ("originalReference", "8313547924770610")].

Definition lookup : entity :=
  Struct [("countryCode", "NL"); ("skinCode", "4aD37dJA")].

End Demo.

(** ** More observations and sample values *)

(** The lines written to a logger, oldest first. *)
Fixpoint log_lines (evs : list event) : list (log_Logger * string) :=
  match evs with
  | [] => []
  | EvLog l line :: rest => (l, line) :: log_lines rest
  | _ :: rest => log_lines rest
  end.

(** The characters [Values.Encode] may write: what [QueryEscape] lets
    through or produces, and the two separators. *)
Definition escaped_char (c : ascii) : bool :=
  is_alnum c || Ascii.eqb c "-" || Ascii.eqb c "_" || Ascii.eqb c "."
  || Ascii.eqb c "~" || Ascii.eqb c "%" || Ascii.eqb c "+".

Definition query_char (c : ascii) : bool :=
  escaped_char c || Ascii.eqb c "&" || Ascii.eqb c "=".

Definition all_chars (P : ascii → bool) (s : string) : Prop :=
  forallb P (list_ascii_of_string s) = true.

(** An operation that cannot attach a logger. *)
Definition attaches_no_logger {Entity} (op : operation Entity) : Prop :=
  match op with
  | OpAttachLogger (Some _) => False
  | _ => True
  end.







Module Samples.


Definition playground : log_Logger :=
  {| log_prefix := "Adyen Playground: "; log_flags := 19 |}.

Definition logging : World :=
  {| self := {| Credentials := Credentials Demo.client;
                Currency := Currency Demo.client;
                MerchantAccount := MerchantAccount Demo.client;
                Logger := Some playground |};
     trace := [] |}.

Definition has_space (s : string) : bool :=
  existsb (Ascii.eqb " ") (list_ascii_of_string s).

(** A runtime whose URL parser rejects every URL with a space in it. *)
Definition picky : Runtime Demo.entity :=
  {| json_Marshal := Demo.marshal;
     query_Values := Demo.values;
     url_Parse := λ url,
       if has_space url then Some (LibError "net/url" "invalid character")
       else None;
     client_Do := λ _ _ _,
       inl {| StatusCode := 200; BodyStream := ("{}", None) |} |}.

(** A server whose answers break off while the body is read. *)
Definition flaky : Runtime Demo.entity :=
  {| json_Marshal := Demo.marshal;
     query_Values := Demo.values;
     url_Parse := λ _, None;
     client_Do := λ _ _ _,
       inl {| StatusCode := 200;
              BodyStream := ("{", Some (LibError "io" "unexpected EOF")) |} |}.

End Samples.

(** ** The helpers of the test file

    [randInt] and [randomString] draw from the global source of
    [math/rand].  [Intn_value seed k n] stands for the value of the [k]-th
    call of [rand.Intn(n)] after [rand.Seed(seed)]; a panic is [None].
    Go's [int] is taken as 64 bits wide. *)
Module TestHelpers.

Definition int_wrap (z : Z) : Z := ((z + 2 ^ 63) mod 2 ^ 64 - 2 ^ 63)%Z.

Definition is_int (z : Z) : Prop := (- 2 ^ 63 ≤ z < 2 ^ 63)%Z.

(** [byte(z)] *)
Definition to_byte (z : Z) : ascii := ascii_of_N (Z.to_N (z mod 256)).

Section Rand.
Variable Intn_value : Z → nat → Z → Z.

(** [rand.Intn(n)] panics unless [n] is positive. *)
Definition rand_Intn (seed : Z) (k : nat) (n : Z) : option Z :=
  if (n <=? 0)%Z then None else Some (Intn_value seed k n).

Definition randInt (seed : Z) (k : nat) (min max : Z) : option Z :=
  v ← rand_Intn seed k (int_wrap (max - min));
  Some (int_wrap (min + v)).

(** The loop [for i := 0; i < l; i++ { bytes[i] = byte(randInt(65, 90)) }],
    with [todo] turns left and [k] draws made since the seed. *)
Fixpoint fill (seed : Z) (k : nat) (todo : nat) : option (list ascii) :=
  match todo with
  | O => Some []
  | S todo' =>
      v ← randInt seed k 65 90;
      rest ← fill seed (S k) todo';
      Some (to_byte v :: rest)
  end.

(** [now] is [time.Now().UTC().UnixNano()], the seed; [make([]byte, l)]
    panics on a negative length. *)
Definition randomString (now : Z) (l : Z) : option string :=
  if (l <? 0)%Z then None
  else string_of_list_ascii <$> fill now 0 (Z.to_nat l).

End Rand.

(** A source for the examples. *)
Definition sample_source (seed : Z) (k : nat) (n : Z) : Z :=
  ((seed + 7 * Z.of_nat k) mod n)%Z.

End TestHelpers.

(** ** Theorems *)

Ltac unfold_M :=
  unfold defer, log_if_attached, Do, gets, modify, emit, mbind, M_bind, mret,
    M_ret in *.

Section RunLemmas.
Context {Entity : Type} (rt : Runtime Entity).

Lemma logged_None a line : Logger a = None → logged a line = [].
Proof. unfold logged. intros ->. reflexivity. Qed.

Lemma logged_Some a l line : Logger a = Some l → logged a line = [EvLog l line].
Proof. unfold logged. intros ->. reflexivity. Qed.

Lemma backend_request_built a service method body :
  SetBasicAuth (Username (Credentials a)) (Password (Credentials a))
    (Request_Header_Set "Content-Type" "application/json"
       {| Method := "POST"; URL := adyenURL a service method;
          ReqHeader := ∅; ReqBody := Some body |})
  = backend_request a service method body.
Proof. reflexivity. Qed.

(** Every call of [execute] is one of the six runs, and leaves the
    receiver as it found it. *)
Lemma execute_runs service method e w :
  ∃ evs,
    execute_run rt service method e w (execute rt service method e w).1 evs
    ∧ (execute rt service method e w).2
      = {| self := self w; trace := trace w ++ evs |}.
Proof.
  destruct w as [a tr].
  unfold execute.
  destruct (json_Marshal rt e) as [body|err] eqn:Hm.
  2:{ exists []. split; [by apply run_marshal_fails|].
      unfold_M. simpl. by rewrite app_nil_r. }
  unfold_M. simpl. unfold http_NewRequest.
  destruct (url_Parse rt (adyenURL a service method)) as [err|] eqn:Hu.
  { exists []. split; [by eapply run_request_fails|].
    simpl. by rewrite app_nil_r. }
  cbn.
  destruct (Logger a) as [l|] eqn:HL; cbn.
  all: match goal with
       | |- context [client_Do rt ?t ?c ?r] =>
           destruct (client_Do rt t c r) as [resp|err] eqn:Hd
       end; cbn.
  all: try destruct (BodyStream resp) as [buf [err|]] eqn:Hb; cbn.
  all: try rewrite HL; cbn.
  all: try destruct (handleHTTPError {| HTTPResponse := resp; Body := buf |})
         as [err|] eqn:Hh; cbn.
  all: eexists; split;
    [ let close := (cbn; unfold logged; cbn; rewrite ?HL, ?app_nil_r; done) in
      first [ solve [eapply run_transport_fails; close]
            | solve [eapply run_read_fails; close]
            | solve [eapply run_status_fails; close]
            | solve [eapply run_succeeds; close] ]
    | cbn; unfold logged; cbn; rewrite ?HL; cbn;
      rewrite <- ?app_assoc; reflexivity ].
Qed.

(** Every call of [executeHpp] is one of its four runs. *)
Lemma executeHpp_runs method e w :
  ∃ evs,
    executeHpp_run rt method e w (executeHpp rt method e w).1 evs
    ∧ (executeHpp rt method e w).2
      = {| self := self w; trace := trace w ++ evs |}.
Proof.
  destruct w as [a tr].
  unfold executeHpp. unfold_M. cbn.
  destruct (query_Values rt e) as [v qerr] eqn:Hq. cbn in *.
  unfold http_NewRequest.
  destruct (url_Parse rt (createHPPUrl a method +:+ "?" +:+ Values_Encode v))
    as [err|] eqn:Hu; cbn.
  { exists []. split; [|by rewrite app_nil_r].
    eapply hpp_request_fails. by rewrite Hq. }
  destruct (Logger a) as [l|] eqn:HL; cbn.
  all: match goal with
       | |- context [client_Do rt ?t ?c ?r] =>
           destruct (client_Do rt t c r) as [resp|err] eqn:Hd
       end; cbn.
  all: try destruct (BodyStream resp) as [buf [err|]] eqn:Hb; cbn.
  all: try rewrite HL; cbn.
  all: eexists; split;
    [ let close :=
        (rewrite ?Hq; cbn; unfold logged; cbn; rewrite ?HL, ?app_nil_r; done) in
      first [ solve [eapply hpp_transport_fails; close]
            | solve [eapply hpp_read_fails; close]
            | solve [eapply hpp_succeeds; close] ]
    | rewrite ?Hq; cbn; unfold logged; cbn; rewrite ?HL; cbn;
      rewrite <- ?app_assoc; reflexivity ].
Qed.

End RunLemmas.
Example base64_rfc_vectors :
  base64_EncodeToString "" = ""
  ∧ base64_EncodeToString "f" = "Zg=="
  ∧ base64_EncodeToString "fo" = "Zm8="
  ∧ base64_EncodeToString "foo" = "Zm9v"
  ∧ base64_EncodeToString "foobar" = "Zm9vYmFy"
  ∧ basicAuth "Aladdin" "open sesame" = "QWxhZGRpbjpvcGVuIHNlc2FtZQ==".
Proof. repeat split; vm_compute; reflexivity. Qed.

Example QueryEscape_samples :
  QueryEscape "a b&c=d/e~f" = "a+b%26c%3Dd%2Fe~f".
Proof. vm_compute. reflexivity. Qed.

Example Values_Encode_sample :
  Values_Encode (<["skinCode" := ["4aD37dJA"]]>
                   (<["countryCode" := ["NL"; "D E"]]> ∅))
  = "countryCode=NL&countryCode=D+E&skinCode=4aD37dJA".
Proof. vm_compute. reflexivity. Qed.

Example demo_execute_200 :
  (execute (Demo.server 200 "{}") PaymentService "capture" Demo.capture
     Demo.start).1
  = (Some {| HTTPResponse := {| StatusCode := 200; BodyStream := ("{}", None) |};
             Body := "{}" |}, None).
Proof. vm_compute. reflexivity. Qed.

Section Consequences.
Context {Entity : Type} (rt : Runtime Entity).


Lemma new_events_of_extension {A} (m : M A) w evs :
  (m w).2 = {| self := self w; trace := trace w ++ evs |} →
  new_events m w = evs.
Proof. unfold new_events. intros ->. cbn. apply drop_app_length. Qed.

(** The run of a call, with the events named through [new_events]. *)
Lemma execute_run_new_events service method e w :
  execute_run rt service method e w (execute rt service method e w).1
    (new_events (execute rt service method e) w)
  ∧ self (execute rt service method e w).2 = self w
  ∧ trace (execute rt service method e w).2
    = trace w ++ new_events (execute rt service method e) w.
Proof.
  destruct (execute_runs rt service method e w) as (evs & Hrun & Hw).
  rewrite (new_events_of_extension _ _ _ Hw), Hw. done.
Qed.

Lemma executeHpp_run_new_events method e w :
  executeHpp_run rt method e w (executeHpp rt method e w).1
    (new_events (executeHpp rt method e) w)
  ∧ self (executeHpp rt method e w).2 = self w
  ∧ trace (executeHpp rt method e w).2
    = trace w ++ new_events (executeHpp rt method e) w.
Proof.
  destruct (executeHpp_runs rt method e w) as (evs & Hrun & Hw).
  rewrite (new_events_of_extension _ _ _ Hw), Hw. done.
Qed.

Lemma sends_app evs1 evs2 : sends (evs1 ++ evs2) = sends evs1 ++ sends evs2.
Proof.
  induction evs1 as [|[] evs1 IH]; cbn; [done|by rewrite ?IH..].
Qed.

Lemma answers_app evs1 evs2 :
  answers (evs1 ++ evs2) = answers evs1 ++ answers evs2.
Proof.
  induction evs1 as [|[] evs1 IH]; cbn; [done|by rewrite ?IH..].
Qed.

Lemma sends_logged a line : sends (logged a line) = [].
Proof. unfold logged. by destruct (Logger a). Qed.

Lemma answers_logged a line : answers (logged a line) = [].
Proof. unfold logged. by destruct (Logger a). Qed.

Ltac observe :=
  repeat match goal with x := _ |- _ => subst x end;
  repeat (progress
            (rewrite ?sends_app, ?answers_app, ?sends_logged, ?answers_logged;
             cbn [sends answers app])).

(** After inverting a run: rewrite the goal with what the libraries
    returned in that run. *)
Ltac by_run_facts :=
  repeat match goal with
         | H : json_Marshal _ _ = _ |- _ => rewrite ?H; clear H
         | H : url_Parse _ _ = _ |- _ => rewrite ?H; clear H
         | H : BodyStream _ = _ |- _ => rewrite ?H; clear H
         | H : handleHTTPError _ = _ |- _ => rewrite ?H; clear H
         end; cbn.

(** The requests [execute] hands to the HTTP client: none when the
    entity does not marshal or the URL does not parse, otherwise the one
    backend request. *)
Lemma execute_sends service method e w :
  sends (new_events (execute rt service method e) w)
  = match json_Marshal rt e,
          url_Parse rt (adyenURL (self w) service method) with
    | inl body, None =>
        [(zero_Client, backend_request (self w) service method body)]
    | _, _ => []
    end.
Proof.
  destruct (execute_run_new_events service method e w) as (Hrun & _).
  inversion Hrun; by_run_facts; by observe.
Qed.

Lemma executeHpp_sends method e w :
  sends (new_events (executeHpp rt method e) w)
  = let req := hpp_request (self w) method (query_Values rt e).1 in
    match url_Parse rt (URL req) with
    | None => [(zero_Client, req)]
    | Some _ => []
    end.
Proof.
  destruct (executeHpp_run_new_events method e w) as (Hrun & _).
  cbv zeta.
  inversion Hrun; by_run_facts; by observe.
Qed.

(** The responses [execute] received: at most the one whose body it read
    and closed. *)
Lemma execute_answers_result service method e w resp :
  resp ∈ answers (new_events (execute rt service method e) w) →
  match BodyStream resp with
  | (_, Some err) => (execute rt service method e w).1 = (None, Some err)
  | (buf, None) =>
      let r := {| HTTPResponse := resp; Body := buf |} in
      (execute rt service method e w).1
      = match handleHTTPError r with
        | Some err => (None, Some err)
        | None => (Some r, None)
        end
  end.
Proof.
  destruct (execute_run_new_events service method e w) as (Hrun & _).
  inversion Hrun; observe; intros Hin; try (by apply elem_of_nil in Hin).
  all: apply list_elem_of_singleton in Hin as ->; by by_run_facts.
Qed.

Lemma executeHpp_answers_result method e w resp :
  resp ∈ answers (new_events (executeHpp rt method e) w) →
  (executeHpp rt method e w).1
  = match BodyStream resp with
    | (_, Some err) => (None, Some err)
    | (buf, None) => (Some {| HTTPResponse := resp; Body := buf |}, None)
    end.
Proof.
  destruct (executeHpp_run_new_events method e w) as (Hrun & _).
  inversion Hrun; observe; intros Hin; try (by apply elem_of_nil in Hin).
  all: apply list_elem_of_singleton in Hin as ->; by by_run_facts.
Qed.

(** The execute half of the status classification: a response with a
    status outside 200..299 makes [execute] return an error and no
    response. *)
Lemma execute_flags_non2xx service method e w resp :
  resp ∈ answers (new_events (execute rt service method e) w) →
  ¬ (200 ≤ StatusCode resp < 300)%Z →
  ∃ err, (execute rt service method e w).1 = (None, Some err).
Proof.
  intros Hin Hstatus. apply execute_answers_result in Hin.
  destruct (BodyStream resp) as [buf [err|]]; [by eexists|].
  cbv zeta in Hin. unfold handleHTTPError in Hin. cbn in Hin.
  destruct (200 <=? StatusCode resp)%Z eqn:Hlo;
    destruct (StatusCode resp <? 300)%Z eqn:Hhi; cbn in Hin;
    try (by eexists).
  exfalso. apply Hstatus. lia.
Qed.

(** The hosted-payment-page half: the status plays no part, a response
    whose body could be read is returned with a nil error. *)
Lemma executeHpp_ignores_status method e w resp buf :
  resp ∈ answers (new_events (executeHpp rt method e) w) →
  BodyStream resp = (buf, None) →
  (executeHpp rt method e w).1
  = (Some {| HTTPResponse := resp; Body := buf |}, None).
Proof.
  intros Hin Hb. apply executeHpp_answers_result in Hin. by rewrite Hb in Hin.
Qed.

(** C2: [execute] hands the HTTP client one POST request, with the JSON
    of the entity as body and a basic-auth Authorization header made from
    the stored user name and password (and nothing when the entity does not
    marshal or the URL does not parse); [executeHpp] hands it one GET
    request, with the encoded parameters after the question mark of the URL,
    no body and an empty header, hence no Authorization header. *)
Theorem execute_posts_json_executeHpp_gets_query service method e w :
  sends (new_events (execute rt service method e) w)
  = match json_Marshal rt e,
          url_Parse rt (adyenURL (self w) service method) with
    | inl body, None =>
        [(zero_Client,
          {| Method := "POST";
             URL := adyenURL (self w) service method;
             ReqHeader :=
               <["Authorization" :=
                   ["Basic " +:+ base64_EncodeToString
                                   (Username (Credentials (self w)) +:+ ":"
                                    +:+ Password (Credentials (self w)))]]>
                 (<["Content-Type" := ["application/json"]]> ∅);
             ReqBody := Some body |})]
    | _, _ => []
    end
  ∧ sends (new_events (executeHpp rt method e) w)
    = (let url := createHPPUrl (self w) method +:+ "?"
                    +:+ Values_Encode (query_Values rt e).1 in
       match url_Parse rt url with
       | None => [(zero_Client,
                   {| Method := "GET"; URL := url; ReqHeader := ∅;
                      ReqBody := None |})]
       | Some _ => []
       end)
  ∧ (∀ body, ReqHeader (backend_request (self w) service method body)
             !! "Authorization"
             = Some ["Basic " +:+ basicAuth (Username (Credentials (self w)))
                                            (Password (Credentials (self w)))])
  ∧ (∀ v, ReqHeader (hpp_request (self w) method v) !! "Authorization" = None).
Proof.
  split; [apply execute_sends|].
  split; [apply executeHpp_sends|].
  split; intros; cbn.
  - apply lookup_insert_eq.
  - apply lookup_empty.
Qed.

(** C3: after [SetCurrency c], [GetCurrency] returns [c]; after
    [SetMerchantAccount m], [GetMerchantAccount] returns [m]. *)
Theorem setters_round_trip (c m : string) (w : World) :
  ((SetCurrency c;; GetCurrency) w).1 = c
  ∧ ((SetMerchantAccount m;; GetMerchantAccount) w).1 = m.
Proof. split; reflexivity. Qed.

(** Whatever the state of the client, the HTTP client that [execute]
    and [executeHpp] build is the zero [http.Client], whose timeout is
    zero: no field of the receiver reaches it. *)
Lemma requests_use_client_without_timeout service method e w :
  Forall (λ cr, Timeout cr.1 = 0%Z)
    (sends (new_events (execute rt service method e) w))
  ∧ Forall (λ cr, Timeout cr.1 = 0%Z)
      (sends (new_events (executeHpp rt method e) w)).
Proof.
  rewrite execute_sends, executeHpp_sends. cbv zeta.
  split; repeat case_match; by repeat constructor.
Qed.

(** C5: [New] stores the environment, the user name and the password it
    is given and sets the currency to EUR; [NewWithHMAC] does the same and
    stores the signing key too. *)
Theorem constructors_store_credentials (env : environment)
    (username password hmac : string) :
  (Env (Credentials (New env username password)) = env
   ∧ Username (Credentials (New env username password)) = username
   ∧ Password (Credentials (New env username password)) = password
   ∧ Currency (New env username password) = "EUR")
  ∧ (Env (Credentials (NewWithHMAC env username password hmac)) = env
     ∧ Username (Credentials (NewWithHMAC env username password hmac))
       = username
     ∧ Password (Credentials (NewWithHMAC env username password hmac))
       = password
     ∧ Currency (NewWithHMAC env username password hmac) = "EUR"
     ∧ Hmac (Credentials (NewWithHMAC env username password hmac)) = hmac).
Proof. repeat split. Qed.

(** C6: the backend URL is the base URL of the environment for the
    service at version v25, then a slash, the request type and a slash;
    it is the URL of the request [execute] sends. *)
Theorem adyenURL_shape (a : Adyen) (service requestType : string) e tr :
  adyenURL a service requestType
  = Environment.BaseURL (Env (Credentials a)) service "v25"
      +:+ "/" +:+ requestType +:+ "/"
  ∧ Forall (λ cr, URL cr.2
                  = Environment.BaseURL (Env (Credentials a)) service "v25"
                      +:+ "/" +:+ requestType +:+ "/")
      (sends (new_events (execute rt service requestType e)
                {| self := a; trace := tr |})).
Proof.
  split; [reflexivity|].
  rewrite execute_sends. repeat case_match; by repeat constructor.
Qed.

(** C7: two clients with the same credentials and logger, whatever
    their currencies and merchant accounts, get the same result and add
    the same events to the trace, hence send the same requests: same body
    and URL in [execute], same query string in [executeHpp]. *)
Theorem currency_and_account_not_injected credentials logger tr
    (c1 m1 c2 m2 : string) service method e :
  let w1 := world_of credentials c1 m1 logger tr in
  let w2 := world_of credentials c2 m2 logger tr in
  ((execute rt service method e w1).1 = (execute rt service method e w2).1
   ∧ trace (execute rt service method e w1).2
     = trace (execute rt service method e w2).2
   ∧ sends (new_events (execute rt service method e) w1)
     = sends (new_events (execute rt service method e) w2))
  ∧ ((executeHpp rt method e w1).1 = (executeHpp rt method e w2).1
     ∧ trace (executeHpp rt method e w1).2
       = trace (executeHpp rt method e w2).2
     ∧ sends (new_events (executeHpp rt method e) w1)
       = sends (new_events (executeHpp rt method e) w2)).
Proof.
  intros w1 w2. subst w1 w2. unfold world_of, new_events. split.
  - unfold execute, http_NewRequest, adyenURL. unfold_M. cbn.
    destruct logger; repeat (case_match; cbn; simplify_eq); done.
  - unfold executeHpp, http_NewRequest, createHPPUrl. unfold_M. cbn.
    destruct logger; repeat (case_match; cbn; simplify_eq); done.
Qed.

Lemma run_operation_keeps_credentials (op : operation Entity) w :
  Credentials (self (run_operation rt op w).2) = Credentials (self w).
Proof.
  destruct op as [l| |c| |m|service method e|method e]; try reflexivity.
  - cbn. unfold_M. cbn.
    by destruct (execute_run_new_events service method e w) as (_ & -> & _).
  - cbn. unfold_M. cbn.
    by destruct (executeHpp_run_new_events method e w) as (_ & -> & _).
Qed.

(** C8: no sequence of calls of AttachLogger, GetCurrency, SetCurrency,
    GetMerchantAccount, SetMerchantAccount, execute and executeHpp changes
    the credentials of the client; a client made by [New] or [NewWithHMAC]
    keeps the credentials the constructor built. *)
Theorem credentials_are_immutable (ops : list (operation Entity)) :
  (∀ w, Credentials (self (run_operations rt ops w).2) = Credentials (self w))
  ∧ (∀ env username password tr,
       Credentials
         (self (run_operations rt ops
                  {| self := New env username password; trace := tr |}).2)
       = newCredentials env username password)
  ∧ (∀ env username password hmac tr,
       Credentials
         (self (run_operations rt ops
                  {| self := NewWithHMAC env username password hmac;
                     trace := tr |}).2)
       = newCredentialsWithHMAC env username password hmac).
Proof.
  assert (∀ w, Credentials (self (run_operations rt ops w).2)
               = Credentials (self w)) as Hframe.
  { induction ops as [|op rest IH]; intros w; [reflexivity|].
    cbn. unfold mbind, M_bind. cbn.
    rewrite IH. apply run_operation_keeps_credentials. }
  split; [exact Hframe|]. split; intros; by rewrite Hframe.
Qed.

(** C9: [execute] returns a response exactly when it returns a nil
    error; an error it returns is the very value that [json.Marshal],
    [http.NewRequest], the HTTP client, the reading of the body or
    [handleHTTPError] produced; and it hands at most one request to the
    HTTP client. *)
Theorem execute_surfaces_errors service method e w :
  let r := (execute rt service method e w).1 in
  let evs := new_events (execute rt service method e) w in
  let url := adyenURL (self w) service method in
  (is_Some r.1 ↔ r.2 = None)
  ∧ (∀ err, r.2 = Some err →
       json_Marshal rt e = inr err
       ∨ url_Parse rt url = Some err
       ∨ (∃ body,
            json_Marshal rt e = inl body
            ∧ client_Do rt
                (trace w ++ logged (self w) (request_line method url body))
                zero_Client (backend_request (self w) service method body)
              = inr err)
       ∨ (∃ resp buf,
            answers evs = [resp] ∧ BodyStream resp = (buf, Some err))
       ∨ (∃ resp buf,
            answers evs = [resp] ∧ BodyStream resp = (buf, None)
            ∧ handleHTTPError {| HTTPResponse := resp; Body := buf |}
              = Some err))
  ∧ (length (sends evs) ≤ 1)%nat.
Proof.
  intros r evs url. subst r evs url.
  destruct (execute_run_new_events service method e w) as (Hrun & _).
  split; [|split].
  - inversion Hrun; cbn; split; (done || by intros [? ?] || by eexists).
  - intros err0 Herr.
    inversion Hrun as [err Hm Hr|body err Hm Hu Hr|body err req before Hm Hu Hd Hr
                      |body resp buf err req before Hm Hu Hd Hb Hr
                      |body resp buf err req before Hm Hu Hd Hb Hh Hr
                      |body resp buf req before Hm Hu Hd Hb Hh Hr];
      rewrite <- Hr in Herr; cbn in Herr; simplify_eq.
    + by left.
    + by right; left.
    + right; right; left. by exists body.
    + right; right; right; left. exists resp, buf. split; [by observe|done].
    + right; right; right; right. exists resp, buf.
      split; [by observe|done].
  - rewrite execute_sends. repeat case_match; cbn; lia.
Qed.


End Consequences.

(** ** The methods on concrete calls *)

Example demo_execute_request :
  sends (new_events (execute (Demo.server 200 "{}") PaymentService "capture"
                       Demo.capture) Demo.start)
  = [(zero_Client,
      {| Method := "POST";
         URL := "https://backend.test/servlet/Payment/v25/capture/";
         ReqHeader := <["Authorization" := ["Basic dW46cHc="]]>
                        (<["Content-Type" := ["application/json"]]> ∅);
         ReqBody :=
           Some ("{" +:+ Demo.quote "merchantAccount" +:+ ":"
                     +:+ Demo.quote "merch" +:+ ","
                     +:+ Demo.quote "originalReference" +:+ ":"
                     +:+ Demo.quote "8313547924770610" +:+ "}") |})].
Proof. vm_compute. reflexivity. Qed.

Example demo_executeHpp_request :
  sends (new_events (executeHpp (Demo.server 200 "[]") "directory" Demo.lookup)
           Demo.start)
  = [(zero_Client,
      {| Method := "GET";
         URL := "https://pages.test/hpp/directory.shtml?countryCode=NL&skinCode=4aD37dJA";
         ReqHeader := ∅;
         ReqBody := None |})].
Proof. vm_compute. reflexivity. Qed.

Example demo_logged_run :
  let l := {| log_prefix := "Adyen Playground: "; log_flags := 19 |} in
  new_events (AttachLogger (Some l);;
              executeHpp (Demo.server 200 "[]") "directory" Demo.Channel)
    Demo.start
  = [EvLog l "[Request]: directory https://pages.test/hpp/directory.shtml?";
     EvDo zero_Client
       {| Method := "GET"; URL := "https://pages.test/hpp/directory.shtml?";
          ReqHeader := ∅; ReqBody := None |};
     EvLog l ("[Response]: directory https://pages.test/hpp/directory.shtml?"
                +:+ nl +:+ "[]");
     EvClose {| StatusCode := 200; BodyStream := ("[]", None) |}].
Proof. vm_compute. reflexivity. Qed.

(** C1: a server that answers 500 to every request.  [execute] turns
    the answer into an error and returns no response; [executeHpp] returns
    the same answer as a response, with a nil error. *)
Theorem executeHpp_returns_failure_status_as_success :
  let rt := Demo.server 500 "Internal Server Error" in
  let answer :=
    {| StatusCode := 500;
       BodyStream := ("Internal Server Error", None) |} in
  answers (new_events (executeHpp rt "directory" Demo.lookup) Demo.start)
  = [answer]
  ∧ (executeHpp rt "directory" Demo.lookup Demo.start).1
    = (Some {| HTTPResponse := answer; Body := "Internal Server Error" |},
       None)
  ∧ answers (new_events (execute rt PaymentService "capture" Demo.capture)
               Demo.start)
    = [answer]
  ∧ (execute rt PaymentService "capture" Demo.capture Demo.start).1
    = (None, Some (APIError 500 "Internal Server Error")).
Proof. vm_compute. repeat split. Qed.

Lemma execute_surfaces_errors_offline :
  let r := (execute Demo.offline PaymentService "capture" Demo.capture
              Demo.start).1 in
  let err := LibError "net/http" "connection refused" in
  r = (None, Some err)
  ∧ (json_Marshal Demo.offline Demo.capture = inr err
     ∨ url_Parse Demo.offline
         (adyenURL Demo.client PaymentService "capture") = Some err
     ∨ (∃ body,
          json_Marshal Demo.offline Demo.capture = inl body
          ∧ client_Do Demo.offline
              ([] ++ logged Demo.client
                       (request_line "capture"
                          (adyenURL Demo.client PaymentService "capture") body))
              zero_Client
              (backend_request Demo.client PaymentService "capture" body)
            = inr err)
     ∨ (∃ resp buf,
          answers (new_events (execute Demo.offline PaymentService "capture"
                                 Demo.capture) Demo.start) = [resp]
          ∧ BodyStream resp = (buf, Some err))
     ∨ (∃ resp buf,
          answers (new_events (execute Demo.offline PaymentService "capture"
                                 Demo.capture) Demo.start) = [resp]
          ∧ BodyStream resp = (buf, None)
          ∧ handleHTTPError {| HTTPResponse := resp; Body := buf |}
            = Some err)).
Proof.
  split; [reflexivity|].
  apply (proj1 (proj2 (execute_surfaces_errors Demo.offline PaymentService
                         "capture" Demo.capture Demo.start))).
  reflexivity.
Defined.

(** ** Further properties of the client *)

Section MoreProperties.
Context {Entity : Type} (rt : Runtime Entity).

Lemma log_lines_app evs1 evs2 :
  log_lines (evs1 ++ evs2) = log_lines evs1 ++ log_lines evs2.
Proof.
  induction evs1 as [|[] evs1 IH]; cbn; [done|by rewrite ?IH..].
Qed.

Lemma log_lines_logged a line :
  log_lines (logged a line)
  = match Logger a with Some l => [(l, line)] | None => [] end.
Proof. unfold logged. by destruct (Logger a). Qed.

Ltac unlet := repeat match goal with x := _ |- _ => subst x end.

Ltac read_trace :=
  unlet;
  repeat (progress
            (rewrite ?sends_app, ?answers_app, ?log_lines_app, ?sends_logged,
               ?answers_logged, ?log_lines_logged;
             cbn [sends answers log_lines app])).

Ltac use_run :=
  repeat match goal with
         | H : json_Marshal _ _ = _ |- _ => rewrite ?H; clear H
         | H : url_Parse _ _ = _ |- _ => rewrite ?H; clear H
         | H : client_Do _ _ _ _ = _ |- _ => rewrite ?H; clear H
         | H : BodyStream _ = _ |- _ => rewrite ?H; clear H
         | H : handleHTTPError _ = _ |- _ => rewrite ?H; clear H
         end; cbn.

Lemma last_of_run {A} (l1 : list A) x l2 y :
  last (l1 ++ [x] ++ l2 ++ [y]) = Some y.
Proof. rewrite !app_assoc. apply last_snoc. Qed.

(** After inverting a run under the assumption that the entity marshalled
    to [body]: identify the body of the run with it. *)
Ltac same_body body :=
  match goal with
  | H : json_Marshal _ _ = inl ?b |- _ =>
      assert (b = body) as -> by congruence
  end.

Ltac use_answer :=
  match goal with
  | H : client_Do _ _ _ _ = _ |- _ => rewrite H
  end.

(** X1: neither [execute] nor [executeHpp] writes to its receiver, and
    both leave the events already in the trace where they are. *)
Theorem requests_leave_client_untouched service method e w :
  (self (execute rt service method e w).2 = self w
   ∧ trace w `prefix_of` trace (execute rt service method e w).2)
  ∧ (self (executeHpp rt method e w).2 = self w
     ∧ trace w `prefix_of` trace (executeHpp rt method e w).2).
Proof.
  destruct (execute_run_new_events rt service method e w) as (_ & Hs & Ht).
  destruct (executeHpp_run_new_events rt method e w) as (_ & Hs' & Ht').
  repeat split; [done|by eexists|done|by eexists].
Qed.

Lemma run_operation_extends (op : operation Entity) w :
  trace w `prefix_of` trace (run_operation rt op w).2.
Proof.
  destruct op as [l| |c| |m|service method e|method e]; cbn;
    unfold_M; cbn; try reflexivity.
  - destruct (execute_run_new_events rt service method e w) as (_ & _ & Ht).
    by eexists.
  - destruct (executeHpp_run_new_events rt method e w) as (_ & _ & Ht).
    by eexists.
Qed.

Lemma run_operations_extends (ops : list (operation Entity)) w :
  trace w `prefix_of` trace (run_operations rt ops w).2.
Proof.
  revert w. induction ops as [|op rest IH]; intros w; [reflexivity|].
  cbn. unfold mbind, M_bind. cbn.
  etrans; [apply run_operation_extends|apply IH].
Qed.

(** X3: a call that fails before the network is reached (the entity
    does not marshal, or the URL does not parse) returns that error and
    leaves the world as it was: nothing is logged, nothing is sent. *)
Theorem failure_before_network_leaves_no_trace service method e w err :
  (json_Marshal rt e = inr err
   ∨ ((∃ body, json_Marshal rt e = inl body)
      ∧ url_Parse rt (adyenURL (self w) service method) = Some err) →
   execute rt service method e w = ((None, Some err), w))
  ∧ (url_Parse rt (createHPPUrl (self w) method +:+ "?"
                     +:+ Values_Encode (query_Values rt e).1) = Some err →
     executeHpp rt method e w = ((None, Some err), w)).
Proof.
  split.
  - intros [Hm|[[body Hm] Hu]]; unfold execute; rewrite Hm; [done|].
    + unfold_M. cbn. unfold http_NewRequest. by rewrite Hu.
  - intros Hu. unfold executeHpp. unfold_M. cbn.
    destruct (query_Values rt e) as [v qerr]. cbn in *.
    unfold http_NewRequest. by rewrite Hu.
Qed.

Lemma execute_log_lines service method e w :
  let evs := new_events (execute rt service method e) w in
  log_lines evs
  = match Logger (self w), sends evs with
    | Some l, (_, req) :: _ =>
        (l, "[Request]: " +:+ method +:+ " " +:+ URL req +:+ nl
              +:+ default "" (ReqBody req))
        :: match answers evs with
           | resp :: _ =>
               match BodyStream resp with
               | (buf, None) =>
                   [(l, "[Response]: " +:+ method +:+ " " +:+ URL req +:+ nl
                          +:+ buf)]
               | (_, Some _) => []
               end
           | [] => []
           end
    | _, _ => []
    end.
Proof.
  intros evs. subst evs.
  destruct (execute_run_new_events rt service method e w) as (Hrun & _).
  inversion Hrun; read_trace; destruct (Logger (self w)); use_run; done.
Qed.

Lemma executeHpp_log_lines method e w :
  let hevs := new_events (executeHpp rt method e) w in
  log_lines hevs
  = match Logger (self w), sends hevs with
    | Some l, (_, req) :: _ =>
        (l, "[Request]: " +:+ method +:+ " " +:+ URL req)
        :: match answers hevs with
           | resp :: _ =>
               match BodyStream resp with
               | (buf, None) =>
                   [(l, "[Response]: " +:+ method +:+ " " +:+ URL req +:+ nl
                          +:+ buf)]
               | (_, Some _) => []
               end
           | [] => []
           end
    | _, _ => []
    end.
Proof.
  intros hevs. subst hevs.
  destruct (executeHpp_run_new_events rt method e w) as (Hrun & _).
  inversion Hrun; read_trace; destruct (Logger (self w)); use_run; done.
Qed.

(** X4: what the calls write to the logger.  Without a logger,
    nothing.  With one, [execute] writes the request line (method, URL and
    body) for the request it sends, then the response line when the body of
    the answer was read to its end, and nothing else; [executeHpp] does the
    same with a request line that has no body. *)
Theorem what_is_logged service method e w :
  let evs := new_events (execute rt service method e) w in
  let hevs := new_events (executeHpp rt method e) w in
  log_lines evs
  = match Logger (self w), sends evs with
    | Some l, (_, req) :: _ =>
        (l, "[Request]: " +:+ method +:+ " " +:+ URL req +:+ nl
              +:+ default "" (ReqBody req))
        :: match answers evs with
           | resp :: _ =>
               match BodyStream resp with
               | (buf, None) =>
                   [(l, "[Response]: " +:+ method +:+ " " +:+ URL req +:+ nl
                          +:+ buf)]
               | (_, Some _) => []
               end
           | [] => []
           end
    | _, _ => []
    end
  ∧ log_lines hevs
    = match Logger (self w), sends hevs with
      | Some l, (_, req) :: _ =>
          (l, "[Request]: " +:+ method +:+ " " +:+ URL req)
          :: match answers hevs with
             | resp :: _ =>
                 match BodyStream resp with
                 | (buf, None) =>
                     [(l, "[Response]: " +:+ method +:+ " " +:+ URL req +:+ nl
                            +:+ buf)]
                 | (_, Some _) => []
                 end
             | [] => []
             end
      | _, _ => []
      end.
Proof.
  split; [apply execute_log_lines|apply executeHpp_log_lines].
Qed.

(** X5: [execute] closes the body of the answer exactly once, as the
    last thing it does, on every path that got an answer; when the HTTP
    client fails there is nothing to close and nothing is closed. *)
Theorem execute_closes_body_once service method e w body :
  let url := adyenURL (self w) service method in
  let evs := new_events (execute rt service method e) w in
  json_Marshal rt e = inl body →
  url_Parse rt url = None →
  match client_Do rt
          (trace w ++ logged (self w) (request_line method url body))
          zero_Client (backend_request (self w) service method body) with
  | inl resp => answers evs = [resp] ∧ last evs = Some (EvClose resp)
  | inr _ => answers evs = []
  end.
Proof.
  intros url evs Hm Hu. subst url evs.
  destruct (execute_run_new_events rt service method e w) as (Hrun & _).
  inversion Hrun; try congruence; same_body body; unlet; use_answer;
    read_trace; try done; (split; [done|]);
    first [apply last_of_run | apply (last_of_run _ _ [])].
Qed.

(** X6: [executeHpp] closes the body of the answer exactly once, last,
    whenever it got an answer, and closes nothing otherwise. *)
Theorem executeHpp_closes_body_once method e w :
  let req := hpp_request (self w) method (query_Values rt e).1 in
  let evs := new_events (executeHpp rt method e) w in
  url_Parse rt (URL req) = None →
  match client_Do rt
          (trace w ++ logged (self w)
                        ("[Request]: " +:+ method +:+ " " +:+ URL req))
          zero_Client req with
  | inl resp => answers evs = [resp] ∧ last evs = Some (EvClose resp)
  | inr _ => answers evs = []
  end.
Proof.
  intros req evs Hu. subst req evs.
  destruct (executeHpp_run_new_events rt method e w) as (Hrun & _).
  inversion Hrun; try congruence; unlet; use_answer;
    read_trace; try done; (split; [done|]);
    first [apply last_of_run | apply (last_of_run _ _ [])].
Qed.

(** X7: a response returned by [execute] is the answer that was
    received for this call: its body is all that could be read from the
    answer, read without error, it passed [handleHTTPError], and the error
    returned with it is nil. *)
Theorem execute_returns_the_answer service method e w r :
  (execute rt service method e w).1.1 = Some r →
  answers (new_events (execute rt service method e) w) = [HTTPResponse r]
  ∧ BodyStream (HTTPResponse r) = (Body r, None)
  ∧ handleHTTPError r = None
  ∧ (execute rt service method e w).1.2 = None.
Proof.
  destruct (execute_run_new_events rt service method e w) as (Hrun & _).
  inversion Hrun as [? ? Hr|? ? ? ? Hr|? ? ? ? ? ? ? Hr|? ? ? ? ? ? ? ? ? Hr
                    |? ? ? ? ? ? ? ? ? ? Hr|? ? ? ? ? ? ? ? ? Hr];
    cbn; intros Heq; simplify_eq; by read_trace.
Qed.

(** X8: a response returned by [executeHpp] is the answer that was
    received for this call, with all of its body, read without error, and
    a nil error. *)
Theorem executeHpp_returns_the_answer method e w r :
  (executeHpp rt method e w).1.1 = Some r →
  answers (new_events (executeHpp rt method e) w) = [HTTPResponse r]
  ∧ BodyStream (HTTPResponse r) = (Body r, None)
  ∧ (executeHpp rt method e w).1.2 = None.
Proof.
  destruct (executeHpp_run_new_events rt method e w) as (Hrun & _).
  inversion Hrun; cbn; intros Heq; simplify_eq; by read_trace.
Qed.

(** X9: the request [execute] sends carries exactly two headers,
    Content-Type with the single value application/json and Authorization
    with a single value. *)
Theorem backend_request_headers service method e w :
  Forall (λ cr,
            dom (ReqHeader cr.2) = ({["Content-Type"; "Authorization"]} : gset string)
            ∧ ReqHeader cr.2 !! "Content-Type" = Some ["application/json"]
            ∧ ∃ value, ReqHeader cr.2 !! "Authorization" = Some [value])
    (sends (new_events (execute rt service method e) w)).
Proof.
  rewrite execute_sends.
  repeat case_match; try (by apply List.Forall_nil).
  apply Forall_singleton. unfold backend_request. cbn [ReqHeader snd].
  split; [|split].
  - rewrite !dom_insert_L, dom_empty_L. set_solver.
  - by rewrite lookup_insert_ne, lookup_insert_eq.
  - rewrite lookup_insert_eq. by eexists.
Qed.

(** X10: the setters are independent of one another: the last value
    set is the one kept, setting the currency leaves the merchant account
    and the logger alone (and the other way round), and the order in which
    two different settings are made does not matter. *)
Theorem setters_are_independent (c c' m m' : string) (l : option log_Logger)
    (w : World) :
  (SetCurrency c;; SetCurrency c') w = SetCurrency c' w
  ∧ (SetMerchantAccount m;; SetMerchantAccount m') w = SetMerchantAccount m' w
  ∧ (SetCurrency c;; SetMerchantAccount m) w
    = (SetMerchantAccount m;; SetCurrency c) w
  ∧ (SetCurrency c;; AttachLogger l) w = (AttachLogger l;; SetCurrency c) w
  ∧ ((SetCurrency c;; GetMerchantAccount) w).1 = (GetMerchantAccount w).1
  ∧ ((SetMerchantAccount m;; GetCurrency) w).1 = (GetCurrency w).1
  ∧ ((AttachLogger l;; GetCurrency) w).1 = (GetCurrency w).1
  ∧ Logger (self (SetCurrency c w).2) = Logger (self w)
  ∧ Logger (self (SetMerchantAccount m w).2) = Logger (self w).
Proof. repeat split. Qed.

Lemma logs_go_to_the_logger service method e w :
  Forall (λ ll, Logger (self w) = Some ll.1)
    (log_lines (new_events (execute rt service method e) w))
  ∧ Forall (λ ll, Logger (self w) = Some ll.1)
      (log_lines (new_events (executeHpp rt method e) w)).
Proof.
  rewrite execute_log_lines, executeHpp_log_lines.
  split; repeat case_match; by repeat constructor.
Qed.

(** X11: [AttachLogger] decides where the lines of the next call go:
    every line goes to the logger attached last, and after attaching nil
    no line is written at all. *)
Theorem attached_logger_receives_the_lines lg service method e w :
  Forall (λ ll, lg = Some ll.1)
    (log_lines (new_events (execute rt service method e)
                  (AttachLogger lg w).2))
  ∧ Forall (λ ll, lg = Some ll.1)
      (log_lines (new_events (executeHpp rt method e)
                    (AttachLogger lg w).2))
  ∧ log_lines (new_events (execute rt service method e)
                 (AttachLogger None w).2) = []
  ∧ log_lines (new_events (executeHpp rt method e)
                 (AttachLogger None w).2) = [].
Proof.
  split; [|split; [|split]].
  - apply (logs_go_to_the_logger service method e (AttachLogger lg w).2).
  - apply (logs_go_to_the_logger service method e (AttachLogger lg w).2).
  - by rewrite execute_log_lines.
  - by rewrite executeHpp_log_lines.
Qed.

Lemma append_assoc (a b c : string) : (a +:+ b) +:+ c = a +:+ b +:+ c.
Proof.
  induction a as [|x a IH]; [done|].
  change (String x ((a +:+ b) +:+ c) = String x (a +:+ b +:+ c)).
  by rewrite IH.
Qed.

(** X12: [execute] joins the stored user name and password with a colon
    and does not check them: a client whose user name is [u:x] with
    password [p] and a client whose user name is [u] with password [x:p]
    send the same requests and get the same results. *)
Theorem colon_in_username_is_ambiguous env (u x p hmac c m : string) lg tr
    service method e :
  let w1 := world_of {| Env := env; Username := u +:+ ":" +:+ x;
                        Password := p; Hmac := hmac |} c m lg tr in
  let w2 := world_of {| Env := env; Username := u;
                        Password := x +:+ ":" +:+ p; Hmac := hmac |} c m lg tr in
  (execute rt service method e w1).1 = (execute rt service method e w2).1
  ∧ trace (execute rt service method e w1).2
    = trace (execute rt service method e w2).2.
Proof.
  intros w1 w2. subst w1 w2. unfold world_of.
  assert (basicAuth (u +:+ ":" +:+ x) p = basicAuth u (x +:+ ":" +:+ p))
    as Hauth.
  { unfold basicAuth. f_equal. by rewrite !append_assoc. }
  unfold execute, http_NewRequest, adyenURL, SetBasicAuth. unfold_M.
  destruct (json_Marshal rt e) as [body|err]; [|done].
  cbn -[basicAuth].
  destruct (url_Parse rt _) as [err|]; [done|].
  destruct lg; cbn -[basicAuth]; rewrite Hauth;
    repeat (case_match; cbn -[basicAuth]; simplify_eq); done.
Qed.

Lemma list_ascii_of_append (a b : string) :
  list_ascii_of_string (a +:+ b)
  = list_ascii_of_string a ++ list_ascii_of_string b.
Proof.
  induction a as [|x a IH]; [done|].
  change (x :: list_ascii_of_string (a +:+ b)
          = x :: (list_ascii_of_string a ++ list_ascii_of_string b)).
  by rewrite IH.
Qed.

Lemma all_chars_append P (a b : string) :
  all_chars P a → all_chars P b → all_chars P (a +:+ b).
Proof.
  unfold all_chars. intros Ha Hb.
  by rewrite list_ascii_of_append, forallb_app, Ha, Hb.
Qed.

Lemma all_chars_String P c (s : string) :
  P c = true → all_chars P s → all_chars P (String c s).
Proof. unfold all_chars. cbn. by intros -> ->. Qed.

Lemma all_chars_weaken (P Q : ascii → bool) (s : string) :
  (∀ c, P c = true → Q c = true) → all_chars P s → all_chars Q s.
Proof.
  unfold all_chars. intros HPQ.
  induction (list_ascii_of_string s) as [|c l IH]; cbn; [done|].
  intros [Hc Hl]%andb_prop. by rewrite (HPQ _ Hc), IH.
Qed.

Lemma hex_digits_are_escaped_chars (c : ascii) :
  escaped_char (table_char upperhex (N.shiftr (code c) 4)) = true
  ∧ escaped_char (table_char upperhex (N.land (code c) 15)) = true.
Proof.
  destruct c as [[] [] [] [] [] [] [] []]; split; vm_compute; reflexivity.
Qed.

Lemma unescaped_is_escaped_char (c : ascii) :
  shouldEscape c = false → escaped_char c = true.
Proof.
  unfold shouldEscape, escaped_char. intros H%negb_false_iff.
  by rewrite H.
Qed.

Lemma QueryEscape_chars (s : string) : all_chars escaped_char (QueryEscape s).
Proof.
  induction s as [|c s IH]; [done|]. cbn [QueryEscape].
  destruct (shouldEscape c) eqn:Hc.
  - destruct (Ascii.eqb c " ").
    + by apply all_chars_String.
    + destruct (hex_digits_are_escaped_chars c) as [Hhi Hlo].
      by repeat apply all_chars_String.
  - apply all_chars_String; [by apply unescaped_is_escaped_char|done].
Qed.

Lemma escaped_is_query_char (c : ascii) :
  escaped_char c = true → query_char c = true.
Proof. unfold query_char. by intros ->. Qed.

Lemma write_pair_chars (k buf value : string) :
  all_chars query_char buf →
  all_chars query_char (write_pair (QueryEscape k) buf value).
Proof.
  intros Hbuf. unfold write_pair.
  assert (∀ t, all_chars query_char (QueryEscape t)) as Hesc.
  { intros t. eapply all_chars_weaken;
      [apply escaped_is_query_char|apply QueryEscape_chars]. }
  repeat apply all_chars_append; try done.
  case_match; [|done]. by apply all_chars_append.
Qed.

Lemma write_key_chars (v : Values) (buf k : string) :
  all_chars query_char buf → all_chars query_char (write_key v buf k).
Proof.
  unfold write_key. generalize (default [] (v !! k)) as values.
  intros values. revert buf.
  induction values as [|value values IH]; intros buf Hbuf; [done|].
  cbn. by apply IH, write_pair_chars.
Qed.

Lemma Values_Encode_chars (v : Values) :
  all_chars query_char (Values_Encode v).
Proof.
  unfold Values_Encode. generalize (sorted_keys v) as keys.
  assert (all_chars query_char "") as Hempty by done.
  revert Hempty. generalize "" as buf. intros buf Hbuf keys. revert buf Hbuf.
  induction keys as [|k keys IH]; intros buf Hbuf; [done|].
  cbn. by apply IH, write_key_chars.
Qed.

(** X13: whatever the request entity holds, the query string that
    [executeHpp] puts after the question mark is made of letters, digits,
    the marks - _ . ~, percent escapes, plus signs, and the separators
    & and =: no value can smuggle in a space, a slash, a second question
    mark or a fragment. *)
Theorem hpp_query_string_is_escaped method e w :
  Forall (λ cr, ∃ query,
            URL cr.2 = createHPPUrl (self w) method +:+ "?" +:+ query
            ∧ all_chars query_char query)
    (sends (new_events (executeHpp rt method e) w)).
Proof.
  rewrite executeHpp_sends. cbv zeta.
  case_match; [by apply List.Forall_nil|].
  apply Forall_singleton. eexists. split; [reflexivity|].
  apply Values_Encode_chars.
Qed.

Lemma new_events_bind {A B} (m : M A) (k : A → M B) w :
  trace w `prefix_of` trace (m w).2 →
  trace (m w).2 `prefix_of` trace (k (m w).1 (m w).2).2 →
  new_events (m ≫= k) w
  = new_events m w ++ new_events (k (m w).1) (m w).2.
Proof.
  intros [e1 H1] [e2 H2]. unfold new_events, mbind, M_bind.
  cbn. rewrite H2, H1. rewrite (drop_app_length (trace w ++ e1) e2).
  by rewrite <- app_assoc, !drop_app_length.
Qed.

Lemma quiet_operation (op : operation Entity) w :
  Logger (self w) = None →
  attaches_no_logger op →
  Logger (self (run_operation rt op w).2) = None
  ∧ log_lines (new_events (run_operation rt op) w) = [].
Proof.
  intros HL Hop.
  destruct op as [[l|]| |c| |m|service method e|method e]; try done;
    try (split; [done|]; unfold new_events; cbn; by rewrite drop_all).
  - cbn. unfold_M. cbn.
    destruct (execute_run_new_events rt service method e w) as (_ & Hs & _).
    rewrite Hs. split; [done|].
    change (log_lines (new_events (execute rt service method e) w) = []).
    by rewrite execute_log_lines, HL.
  - cbn. unfold_M. cbn.
    destruct (executeHpp_run_new_events rt method e w) as (_ & Hs & _).
    rewrite Hs. split; [done|].
    change (log_lines (new_events (executeHpp rt method e) w) = []).
    by rewrite executeHpp_log_lines, HL.
Qed.

Lemma quiet_operations (ops : list (operation Entity)) w :
  Logger (self w) = None →
  Forall attaches_no_logger ops →
  log_lines (new_events (run_operations rt ops) w) = [].
Proof.
  revert w. induction ops as [|op rest IH]; intros w HL Hops.
  { unfold new_events. cbn. by rewrite drop_all. }
  apply Forall_cons in Hops as [Hop Hrest].
  destruct (quiet_operation op w HL Hop) as [HL' Hq].
  cbn [run_operations].
  rewrite new_events_bind, log_lines_app, Hq;
    [|apply run_operation_extends|apply run_operations_extends].
  by apply IH.
Qed.

(** X14: a client logs nothing until a logger is attached: on a client
    fresh from [New] or [NewWithHMAC], no sequence of calls that attaches
    no logger writes a line. *)
Theorem fresh_client_never_logs (ops : list (operation Entity))
    env (username password hmac : string) tr :
  Forall attaches_no_logger ops →
  log_lines (new_events (run_operations rt ops)
               {| self := New env username password; trace := tr |}) = []
  ∧ log_lines (new_events (run_operations rt ops)
                 {| self := NewWithHMAC env username password hmac;
                    trace := tr |}) = [].
Proof. intros Hops. split; by apply quiet_operations. Qed.




End MoreProperties.

(** ** The helpers of the test file *)

Section RandProperties.
Import TestHelpers.
Variable Intn_value : Z → nat → Z → Z.

(** What [math/rand] promises of [Intn]. *)
Hypothesis Intn_range :
  ∀ seed k n, (0 < n)%Z → (0 ≤ Intn_value seed k n < n)%Z.

Lemma int_wrap_small z : is_int z → int_wrap z = z.
Proof. unfold is_int, int_wrap. intros Hz. rewrite Z.mod_small; lia. Qed.

(** X15: for [min < max], both of them ints and their difference an
    int too, [randInt] returns a value from [min] up to, but not
    including, [max]. *)
Theorem randInt_in_range seed k (min max : Z) :
  is_int min → is_int max → (min < max)%Z → is_int (max - min) →
  ∃ v, randInt Intn_value seed k min max = Some v ∧ (min ≤ v < max)%Z.
Proof.
  intros Hmin Hmax Hlt Hdiff. unfold randInt.
  rewrite (int_wrap_small _ Hdiff). unfold rand_Intn.
  destruct (Z.leb_spec (max - min) 0) as [?|_]; [lia|]. cbn.
  pose proof (Intn_range seed k (max - min) ltac:(lia)) as Hv.
  eexists. split; [reflexivity|].
  rewrite int_wrap_small; unfold is_int in *; lia.
Qed.

(** X16: when [max] is not above [min], [randInt] panics, as long as
    the difference [max - min] is an int; when that difference overflows,
    it wraps around to a positive bound and [randInt] returns a value. *)
Theorem randInt_panics_on_empty_range seed k (min max : Z) :
  (max ≤ min)%Z →
  (is_int (max - min) → randInt Intn_value seed k min max = None)
  ∧ (¬ is_int (max - min) → is_int min → is_int max →
     is_Some (randInt Intn_value seed k min max)).
Proof.
  intros Hle. split.
  - intros Hdiff. unfold randInt. rewrite (int_wrap_small _ Hdiff).
    unfold rand_Intn. by destruct (Z.leb_spec (max - min) 0); [|lia].
  - intros Hdiff Hmin Hmax. unfold randInt, rand_Intn, is_int, int_wrap in *.
    assert ((max - min + 2 ^ 63) mod 2 ^ 64 = max - min + 2 ^ 63 + 2 ^ 64)%Z
      as ->.
    { symmetry. apply (Z.mod_unique _ _ (-1)); lia. }
    destruct (Z.leb_spec (max - min + 2 ^ 63 + 2 ^ 64 - 2 ^ 63) 0); [lia|].
    by eexists.
Qed.

Lemma fill_letters seed (todo : nat) : ∀ k,
  ∃ cs, fill Intn_value seed k todo = Some cs
        ∧ length cs = todo
        ∧ Forall (λ c, (65 ≤ code c ≤ 89)%N) cs.
Proof.
  induction todo as [|todo IH]; intros k; [by exists []|].
  cbn [fill].
  destruct (randInt_in_range seed k 65 90) as (v & -> & Hv);
    [unfold is_int; lia..|].
  destruct (IH (S k)) as (cs & -> & Hlen & Hcs). cbn.
  eexists. split; [reflexivity|]. split; [cbn; by rewrite Hlen|].
  constructor; [|done].
  unfold to_byte, code. rewrite Z.mod_small by lia.
  rewrite N_ascii_embedding by lia. lia.
Qed.

Lemma length_string_of_list_ascii (cs : list ascii) :
  String.length (string_of_list_ascii cs) = length cs.
Proof. induction cs as [|c cs IH]; cbn; [done|by rewrite IH]. Qed.

(** X17: [randomString(l)] panics on a negative length and otherwise
    returns a string of exactly [l] bytes, each of them one of the capital
    letters A to Y: the letter Z is never drawn, since the upper bound 90 of
    [randInt(65, 90)] is excluded. *)
Theorem randomString_letters (now l : Z) :
  match randomString Intn_value now l with
  | Some s =>
      (0 ≤ l)%Z
      ∧ String.length s = Z.to_nat l
      ∧ Forall (λ c, (code "A" ≤ code c ≤ code "Y")%N) (list_ascii_of_string s)
  | None => (l < 0)%Z
  end.
Proof.
  unfold randomString.
  destruct (Z.ltb_spec l 0) as [Hneg|Hpos]; [done|].
  destruct (fill_letters now (Z.to_nat l) 0) as (cs & -> & Hlen & Hcs). cbn.
  split; [done|]. split.
  - by rewrite length_string_of_list_ascii.
  - by rewrite list_ascii_of_string_of_list_ascii.
Qed.

End RandProperties.

(** ** The further properties on concrete calls *)

Lemma failure_before_network_samples :
  let jerr := LibError "json" "unsupported type: chan int" in
  let uerr := LibError "net/url" "invalid character" in
  (json_Marshal (Demo.server 200 "{}") Demo.Channel = inr jerr
   ∧ execute (Demo.server 200 "{}") PaymentService "capture" Demo.Channel
       Samples.logging
     = ((None, Some jerr), Samples.logging))
  ∧ (url_Parse Samples.picky
       (createHPPUrl (self Samples.logging) "direc tory" +:+ "?"
          +:+ Values_Encode (query_Values Samples.picky Demo.lookup).1)
     = Some uerr
     ∧ executeHpp Samples.picky "direc tory" Demo.lookup Samples.logging
       = ((None, Some uerr), Samples.logging)).
Proof.
  split; (split; [vm_compute; reflexivity|]).
  - apply (proj1 (failure_before_network_leaves_no_trace
                    (Demo.server 200 "{}") PaymentService "capture"
                    Demo.Channel Samples.logging _)).
    left. reflexivity.
  - apply (proj2 (failure_before_network_leaves_no_trace
                    Samples.picky PaymentService "direc tory"
                    Demo.lookup Samples.logging _)).
    vm_compute. reflexivity.
Defined.

Lemma execute_closes_body_once_flaky :
  let evs := new_events (execute Samples.flaky PaymentService "capture"
                           Demo.capture) Samples.logging in
  let resp := {| StatusCode := 200;
                 BodyStream := ("{", Some (LibError "io" "unexpected EOF")) |} in
  answers evs = [resp] ∧ last evs = Some (EvClose resp).
Proof.
  exact (execute_closes_body_once Samples.flaky PaymentService "capture"
           Demo.capture Samples.logging _ eq_refl eq_refl).
Defined.

Lemma executeHpp_closes_body_once_offline :
  url_Parse Demo.offline
    (URL (hpp_request Demo.client "directory"
            (query_Values Demo.offline Demo.lookup).1)) = None
  ∧ answers (new_events (executeHpp Demo.offline "directory" Demo.lookup)
               Demo.start) = [].
Proof.
  split; [reflexivity|].
  exact (executeHpp_closes_body_once Demo.offline "directory" Demo.lookup
           Demo.start eq_refl).
Defined.

Lemma execute_returns_the_answer_200 :
  let answer := {| StatusCode := 200; BodyStream := ("{}", None) |} in
  let r := {| HTTPResponse := answer; Body := "{}" |} in
  let call := execute (Demo.server 200 "{}") PaymentService "capture"
                Demo.capture in
  (call Demo.start).1.1 = Some r
  ∧ answers (new_events call Demo.start) = [answer]
  ∧ BodyStream answer = ("{}", None)
  ∧ handleHTTPError r = None
  ∧ (call Demo.start).1.2 = None.
Proof.
  intros answer r call. split; [vm_compute; reflexivity|].
  apply (execute_returns_the_answer (Demo.server 200 "{}") PaymentService
           "capture" Demo.capture Demo.start r).
  vm_compute. reflexivity.
Defined.

Lemma executeHpp_returns_the_answer_404 :
  let answer := {| StatusCode := 404; BodyStream := ("Not Found", None) |} in
  let r := {| HTTPResponse := answer; Body := "Not Found" |} in
  let call := executeHpp (Demo.server 404 "Not Found") "directory"
                Demo.lookup in
  (call Demo.start).1.1 = Some r
  ∧ answers (new_events call Demo.start) = [answer]
  ∧ BodyStream answer = ("Not Found", None)
  ∧ (call Demo.start).1.2 = None.
Proof.
  intros answer r call. split; [vm_compute; reflexivity|].
  apply (executeHpp_returns_the_answer (Demo.server 404 "Not Found")
           "directory" Demo.lookup Demo.start r).
  vm_compute. reflexivity.
Defined.

Lemma fresh_client_never_logs_sample :
  let ops := [OpSetCurrency "USD";
              OpExecute PaymentService "capture" Demo.capture;
              OpAttachLogger None;
              OpExecuteHpp "directory" Demo.lookup] in
  Forall attaches_no_logger ops
  ∧ log_lines (new_events (run_operations (Demo.server 200 "{}") ops)
                 {| self := New Demo.sample_env "un" "pw"; trace := [] |})
    = [].
Proof.
  assert (Forall (@attaches_no_logger Demo.entity)
            [OpSetCurrency "USD";
             OpExecute PaymentService "capture" Demo.capture;
             OpAttachLogger None;
             OpExecuteHpp "directory" Demo.lookup]) as Hops.
  { repeat constructor. }
  split; [exact Hops|].
  exact (proj1 (fresh_client_never_logs (Demo.server 200 "{}") _
                  Demo.sample_env "un" "pw" "" [] Hops)).
Defined.

Lemma sample_source_range seed k n :
  (0 < n)%Z → (0 ≤ TestHelpers.sample_source seed k n < n)%Z.
Proof. intros Hn. unfold TestHelpers.sample_source. by apply Z.mod_pos_bound. Qed.

Lemma randInt_in_range_sample :
  ∃ v, TestHelpers.randInt TestHelpers.sample_source 5 2 65 90 = Some v
       ∧ (65 ≤ v < 90)%Z.
Proof.
  apply (randInt_in_range TestHelpers.sample_source sample_source_range
           5 2 65 90); unfold TestHelpers.is_int; lia.
Defined.

Lemma randInt_panics_sample :
  TestHelpers.randInt TestHelpers.sample_source 5 0 10 3 = None
  ∧ is_Some (TestHelpers.randInt TestHelpers.sample_source 5 0
               (2 ^ 63 - 1) (- 2 ^ 63)).
Proof.
  split.
  - apply (proj1 (randInt_panics_on_empty_range TestHelpers.sample_source
                    5 0 10 3 ltac:(lia))).
    unfold TestHelpers.is_int. lia.
  - apply (proj2 (randInt_panics_on_empty_range TestHelpers.sample_source
                    5 0 (2 ^ 63 - 1) (- 2 ^ 63) ltac:(lia)));
      unfold TestHelpers.is_int; lia.
Defined.

Lemma randomString_letters_sample :
  match TestHelpers.randomString TestHelpers.sample_source 5 3 with
  | Some s =>
      (0 ≤ 3)%Z
      ∧ String.length s = Z.to_nat 3
      ∧ Forall (λ c, (code "A" ≤ code c ≤ code "Y")%N)
          (list_ascii_of_string s)
  | None => (3 < 0)%Z
  end.
Proof.
  exact (randomString_letters TestHelpers.sample_source sample_source_range
           5 3).
Defined.

Example randomString_sample :
  TestHelpers.randomString TestHelpers.sample_source 5 3 = Some "FMT"
  ∧ TestHelpers.randomString TestHelpers.sample_source 5 0 = Some ""
  ∧ TestHelpers.randomString TestHelpers.sample_source 5 (-1) = None.
Proof. vm_compute. repeat split. Qed.

(** ** The two corrected claims on concrete calls *)



